(** * Verification of the linked lists of bad_lists

    - [Fourth]: the doubly-linked [List] of src/fourth.rs, built from
      [Rc<RefCell<Node<T>>>]; modelled over an explicit heap of reference
      counted cells with a mutable-borrow flag, in a state monad whose
      failure is a runtime panic.
    - [Silly1]: the finger list of src/silly1.rs, two [Stack]s of boxed nodes.
    - [ThirdArc]: the persistent [Arc] list of src/third_with_arc.rs.
    - [Fifth]: the queue of src/fifth.rs with a raw tail pointer. *)

From stdpp Require Import base gmap list.

Module Fourth.

Definition loc := nat.

Section Model.
Context {A : Type}.

(** An [Rc<RefCell<Node<T>>>] allocation: the strong count, the RefCell
    borrow state (only [borrow_mut] is used by the code, so a flag for an
    outstanding [RefMut]), and the node's fields [elem], [next], [prev]. *)
Record Node := mkNode {
  rc : nat;
  borrowed : bool;
  elem : A;
  next : option loc;
  prev : option loc
}.

Definition set_rc (n : nat) (c : Node) : Node :=
  mkNode n (borrowed c) (elem c) (next c) (prev c).
Definition set_borrowed (b : bool) (c : Node) : Node :=
  mkNode (rc c) b (elem c) (next c) (prev c).
Definition set_next (o : option loc) (c : Node) : Node :=
  mkNode (rc c) (borrowed c) (elem c) o (prev c).
Definition set_prev (o : option loc) (c : Node) : Node :=
  mkNode (rc c) (borrowed c) (elem c) (next c) o.

(** [struct List { head: Link<T>, tail: Link<T> }] together with the heap
    holding every live allocation. *)
Record List := mkList {
  head : option loc;
  tail : option loc;
  heap : gmap loc Node
}.

(** Dropping one [Rc] handle: the strong count is decremented; when it
    reaches zero the node is deallocated and its fields are dropped in
    declaration order ([elem], then [next], then [prev]). The recursion of
    Rust's drop glue is bounded by the fuel. *)
Fixpoint drop_fuel (fuel : nat) (o : option loc) (h : gmap loc Node)
    : gmap loc Node :=
  match fuel, o with
  | S f, Some l =>
      match h !! l with
      | Some c =>
          match rc c with
          | S (S n) => <[l := set_rc (S n) c]> h
          | _ => drop_fuel f (prev c) (drop_fuel f (next c) (delete l h))
          end
      | None => h
      end
  | _, _ => h
  end.

Definition drop_link_h (o : option loc) (h : gmap loc Node) : gmap loc Node :=
  drop_fuel (S (size h)) o h.

(** The execution monad: state passing over [List], [None] is a panic. *)
Definition M (X : Type) : Type := List -> option (X * List).

Definition ret {X} (x : X) : M X := fun s => Some (x, s).
Definition bind {X Y} (m : M X) (k : X -> M Y) : M Y :=
  fun s => match m s with Some (x, s') => k x s' | None => None end.

Notation "'let*' x := m 'in' k" := (bind m (fun x => k))
  (at level 200, x name, m at level 100, k at level 200).

Definition panic {X} : M X := fun _ => None.

Definition modify_heap (f : gmap loc Node -> gmap loc Node) : M unit :=
  fun s => Some (tt, mkList (head s) (tail s) (f (heap s))).

Definition get_cell (l : loc) : M Node :=
  fun s => match heap s !! l with Some c => Some (c, s) | None => None end.

Definition put_cell (l : loc) (c : Node) : M unit :=
  modify_heap (insert l c).

(** [Rc::new(RefCell::new(node))]. *)
Definition alloc (c : Node) : M loc :=
  fun s => let l := fresh (dom (heap s)) in
    Some (l, mkList (head s) (tail s) (<[l := c]> (heap s))).

(** [Rc::clone]. *)
Definition rc_clone (l : loc) : M unit :=
  let* c := get_cell l in put_cell l (set_rc (S (rc c)) c).

Definition drop_link (o : option loc) : M unit := modify_heap (drop_link_h o).

(** [RefCell::borrow_mut]: panics when a [RefMut] is outstanding. *)
Definition borrow_mut (l : loc) : M unit :=
  let* c := get_cell l in
  if borrowed c then panic else put_cell l (set_borrowed true c).

(** The [RefMut] guard going out of scope. *)
Definition release (l : loc) : M unit :=
  let* c := get_cell l in put_cell l (set_borrowed false c).

(** [guard.prev = v] (the old value is dropped) and [guard.prev.take()]. *)
Definition assign_prev (l : loc) (v : option loc) : M unit :=
  let* c := get_cell l in
  let* _ := put_cell l (set_prev v c) in
  drop_link (prev c).
Definition assign_next (l : loc) (v : option loc) : M unit :=
  let* c := get_cell l in
  let* _ := put_cell l (set_next v c) in
  drop_link (next c).
Definition take_prev (l : loc) : M (option loc) :=
  let* c := get_cell l in
  let* _ := put_cell l (set_prev None c) in
  ret (prev c).
Definition take_next (l : loc) : M (option loc) :=
  let* c := get_cell l in
  let* _ := put_cell l (set_next None c) in
  ret (next c).

Definition take_head : M (option loc) :=
  fun s => Some (head s, mkList None (tail s) (heap s)).
Definition take_tail : M (option loc) :=
  fun s => Some (tail s, mkList (head s) None (heap s)).
Definition assign_head (v : option loc) : M unit :=
  fun s => Some (tt, mkList v (tail s) (drop_link_h (head s) (heap s))).
Definition assign_tail (v : option loc) : M unit :=
  fun s => Some (tt, mkList (head s) v (drop_link_h (tail s) (heap s))).

(** [Rc::try_unwrap(rc).ok().unwrap().into_inner()]: panics unless the
    strong count is one; the node leaves the heap. *)
Definition try_unwrap_into_inner (l : loc) : M Node :=
  let* c := get_cell l in
  match rc c with
  | 1 => let* _ := modify_heap (delete l) in ret c
  | _ => panic
  end.

(** [List::new]. *)
Definition new : List := mkList None None ∅.

(** [List::push_front]. *)
Definition push_front (x : A) : M unit :=
  let* new_head := alloc (mkNode 1 false x None None) in
  let* h := take_head in
  match h with
  | Some old_head =>
      (* old_head.borrow_mut().prev = Some(new_head.clone()); *)
      let* _ := rc_clone new_head in
      let* _ := borrow_mut old_head in
      let* _ := assign_prev old_head (Some new_head) in
      let* _ := release old_head in
      (* new_head.borrow_mut().next = Some(old_head); *)
      let* _ := borrow_mut new_head in
      let* _ := assign_next new_head (Some old_head) in
      let* _ := release new_head in
      (* self.head = Some(new_head); *)
      assign_head (Some new_head)
  | None =>
      (* self.tail = Some(new_head.clone()); self.head = Some(new_head); *)
      let* _ := rc_clone new_head in
      let* _ := assign_tail (Some new_head) in
      assign_head (Some new_head)
  end.

(** [List::pop_front]. The [RefMut] of [old_head] taken in the match
    scrutinee lives until the end of the match statement. *)
Definition pop_front : M (option A) :=
  let* h := take_head in
  match h with
  | None => ret None
  | Some old_head =>
      let* _ := borrow_mut old_head in
      let* nx := take_next old_head in
      let* _ :=
        match nx with
        | Some new_head =>
            (* new_head.borrow_mut().prev.take(); self.head = Some(new_head); *)
            let* _ := borrow_mut new_head in
            let* p := take_prev new_head in
            let* _ := drop_link p in
            let* _ := release new_head in
            assign_head (Some new_head)
        | None =>
            (* self.tail.take(); *)
            let* t := take_tail in
            drop_link t
        end in
      let* _ := release old_head in
      let* c := try_unwrap_into_inner old_head in
      (* [.elem] moves the element; the other fields are dropped *)
      let* _ := drop_link (next c) in
      let* _ := drop_link (prev c) in
      ret (Some (elem c))
  end.

(** [List] has no [Drop] impl: discarding it runs the drop glue of its
    fields, [head] then [tail]. *)
Definition drop_list (s : List) : gmap loc Node :=
  drop_link_h (tail s) (drop_link_h (head s) (heap s)).

(** The public operations of [List]: [new], [push_front], [pop_front]. *)
Inductive op :=
| PushFront (x : A)
| PopFront.

Inductive out :=
| Pushed
| Popped (o : option A).

Definition run_op (o : op) : M out :=
  match o with
  | PushFront x => let* _ := push_front x in ret Pushed
  | PopFront => let* r := pop_front in ret (Popped r)
  end.

Fixpoint run_ops (os : list op) : M (list out) :=
  match os with
  | [] => ret []
  | o :: os' => let* r := run_op o in let* rs := run_ops os' in ret (r :: rs)
  end.

(** Following the links: forward along [next] from [head], backward along
    [prev] from [tail]; at most one step per live cell. *)
Fixpoint walk_next (fuel : nat) (h : gmap loc Node) (o : option loc) : list loc :=
  match fuel, o with
  | S f, Some l =>
      match h !! l with Some c => l :: walk_next f h (next c) | None => [] end
  | _, _ => []
  end.

Fixpoint walk_prev (fuel : nat) (h : gmap loc Node) (o : option loc) : list loc :=
  match fuel, o with
  | S f, Some l =>
      match h !! l with Some c => l :: walk_prev f h (prev c) | None => [] end
  | _, _ => []
  end.

Definition forward (s : List) : list loc := walk_next (size (heap s)) (heap s) (head s).
Definition backward (s : List) : list loc := walk_prev (size (heap s)) (heap s) (tail s).

(** The elements read from head to tail. *)
Definition contents (s : List) : list A :=
  omap (fun l => elem <$> heap s !! l) (forward s).

(** The doubly-linked invariant of the spec, stated on the heap. *)
Definition dl_invariant (s : List) : Prop :=
  (head s = None <-> tail s = None) /\
  (forall l, head s = Some l -> exists c, heap s !! l = Some c /\ prev c = None) /\
  (forall l, tail s = Some l -> exists c, heap s !! l = Some c /\ next c = None) /\
  (forall l c m, heap s !! l = Some c -> next c = Some m ->
     exists cm, heap s !! m = Some cm /\ prev cm = Some l) /\
  (forall l c m, heap s !! l = Some c -> prev c = Some m ->
     exists cm, heap s !! m = Some cm /\ next cm = Some l) /\
  forward s = rev (backward s).

End Model.

Arguments Node : clear implicits.
Arguments List : clear implicits.
Arguments op : clear implicits.
Arguments out : clear implicits.

(** ** Representation of a well-formed list in the heap *)

Section Repr.
Context {A : Type}.
Implicit Types (h : gmap loc (Node A)) (ls : list loc) (xs : list A).

(** The cells [ls], in order from head to tail, hold [xs]; each has strong
    count two, no outstanding borrow, and its [next]/[prev] links name its
    neighbours in [ls] ([p] is the link expected in the first [prev]). *)
Fixpoint chain h (p : option loc) ls xs : Prop :=
  match ls, xs with
  | [], [] => True
  | l :: ls', x :: xs' =>
      h !! l = Some (mkNode 2 false x (List.hd_error ls') p) /\
      chain h (Some l) ls' xs'
  | _, _ => False
  end.

Definition repr (s : List A) xs : Prop :=
  exists ls, NoDup ls /\ dom (heap s) = list_to_set ls /\
    head s = List.hd_error ls /\ tail s = last ls /\ chain (heap s) None ls xs.

(** The spec's reading of the operations on the sequence of elements:
    [push_front] prepends, [pop_front] removes and returns the first. *)
Definition spec_op (o : op A) (xs : list A) : out A * list A :=
  match o, xs with
  | PushFront x, _ => (Pushed, x :: xs)
  | PopFront, [] => (Popped None, [])
  | PopFront, x :: xs' => (Popped (Some x), xs')
  end.

Fixpoint spec_ops (os : list (op A)) (xs : list A) : list (out A) * list A :=
  match os with
  | [] => ([], xs)
  | o :: os' =>
      let '(r, ys) := spec_op o xs in
      let '(rs, zs) := spec_ops os' ys in (r :: rs, zs)
  end.

End Repr.

(** Symbolic execution of the monadic code on a concrete heap shape. *)
Ltac run :=
  repeat (progress (unfold bind, ret, get_cell, put_cell, modify_heap, alloc,
    rc_clone, borrow_mut, release, assign_prev, assign_next, take_prev,
    take_next, take_head, take_tail, assign_head, assign_tail, drop_link,
    try_unwrap_into_inner, panic, drop_link_h, set_rc, set_borrowed,
    set_prev, set_next; simpl; simplify_map_eq;
    rewrite ?insert_insert_eq; simpl)).

Section Proofs.
Context {A : Type}.
Implicit Types (h : gmap loc (Node A)) (ls : list loc) (xs : list A).

Lemma chain_insert_notin h p ls xs l c :
  l ∉ ls -> chain h p ls xs -> chain (<[l:=c]> h) p ls xs.
Proof.
  revert p xs. induction ls as [|l' ls IH]; intros p [|x xs]; simpl; try tauto.
  intros Hn [Hl Hc]. rewrite elem_of_cons in Hn. split.
  - rewrite lookup_insert_ne; [done|]. intros ->. apply Hn; auto.
  - apply IH; auto.
Qed.

Lemma chain_delete_notin h p ls xs l :
  l ∉ ls -> chain h p ls xs -> chain (delete l h) p ls xs.
Proof.
  revert p xs. induction ls as [|l' ls IH]; intros p [|x xs]; simpl; try tauto.
  intros Hn [Hl Hc]. rewrite elem_of_cons in Hn. split.
  - rewrite lookup_delete_ne; [done|]. intros ->. apply Hn; auto.
  - apply IH; auto.
Qed.

Lemma push_front_spec (s : List A) xs x :
  repr s xs -> exists s', push_front x s = Some (tt, s') /\ repr s' (x :: xs).
Proof.
  intros (ls & Hnd & Hdom & Hh & Ht & Hc).
  destruct s as [hd tl h]; simpl in *. subst hd tl.
  set (n := fresh (dom h)).
  assert (Hn : h !! n = None).
  { apply not_elem_of_dom. apply is_fresh. }
  destruct ls as [|l0 ls].
  - destruct xs; [|done].
    unfold push_front. run. fold n. run.
    apply dom_empty_inv_L in Hdom. subst h.
    eexists; split; [reflexivity|].
    exists [n]; simpl. repeat split; try done. apply NoDup_singleton.
  - destruct xs as [|x0 xs]; [done|]. destruct Hc as [Hl0 Hc].
    assert (n <> l0) by (intros ->; congruence).
    unfold push_front. run. fold n. run.
    assert (Hnl : n ∉ l0 :: ls).
    { intros Hin. apply not_elem_of_dom in Hn. apply Hn. rewrite Hdom.
      apply (elem_of_list_to_set (C:=gset loc)) in Hin. simpl in Hin. set_solver. }
    pose proof Hnd as Hnd'. apply NoDup_cons in Hnd' as [Hl0ls _].
    eexists; split; [reflexivity|].
    exists (n :: l0 :: ls); simpl. repeat split.
    + constructor; done.
    + rewrite !dom_insert_L, Hdom. set_solver.
    + simplify_map_eq. done.
    + simplify_map_eq. done.
    + do 3 (apply chain_insert_notin; [set_solver|]). done.
Qed.

Lemma pop_front_empty (s : List A) :
  repr s [] -> pop_front s = Some (None, s).
Proof.
  intros ([|l ls] & Hnd & Hdom & Hh & Ht & Hc); [|done].
  destruct s as [hd tl h]; simpl in *. subst hd tl.
  unfold pop_front. run. done.
Qed.

Lemma pop_front_cons (s : List A) x xs :
  repr s (x :: xs) -> exists s', pop_front s = Some (Some x, s') /\ repr s' xs.
Proof.
  intros ([|l0 ls] & Hnd & Hdom & Hh & Ht & Hc); [done|].
  destruct s as [hd tl h]; simpl in *. subst hd tl.
  destruct Hc as [Hl0 Hc].
  pose proof Hnd as Hnd'. apply NoDup_cons in Hnd' as [Hl0ls Hndls].
  destruct ls as [|l1 ls].
  - destruct xs; [|done].
    unfold pop_front. run.
    eexists; split; [reflexivity|].
    exists []; simpl. repeat split; try done.
    rewrite delete_insert_eq, dom_delete_L, Hdom. set_solver.
  - destruct xs as [|x1 xs]; [done|]. destruct Hc as [Hl1 Hc].
    assert (l0 <> l1) by set_solver.
    unfold pop_front. run.
    assert (Hl0s : l0 ∉ (list_to_set ls : gset loc)).
    { rewrite elem_of_list_to_set. set_solver. }
    apply NoDup_cons in Hndls as Hndls'. destruct Hndls' as [Hl1ls _].
    eexists; split; [reflexivity|].
    exists (l1 :: ls); simpl. repeat split.
    + done.
    + rewrite dom_delete_L, !dom_insert_L, Hdom. set_solver.
    + simplify_map_eq. done.
    + apply chain_delete_notin; [set_solver|].
      repeat (apply chain_insert_notin; [set_solver|]). done.
Qed.

Lemma repr_new : repr (@new A) [].
Proof. exists []. repeat split; constructor. Qed.

(** Every run of public operations from a well-formed list succeeds and
    agrees with [spec_ops]. *)
Lemma run_ops_spec (os : list (op A)) (s : List A) xs :
  repr s xs ->
  exists s', run_ops os s = Some (fst (spec_ops os xs), s') /\
             repr s' (snd (spec_ops os xs)).
Proof.
  revert s xs. induction os as [|o os IH]; intros s xs Hr; simpl.
  - eexists; split; [reflexivity|done].
  - destruct o as [x|].
    + destruct (push_front_spec s xs x Hr) as (s1 & Hp & Hr1).
      destruct (IH s1 (x :: xs) Hr1) as (s2 & Hrun & Hr2).
      unfold run_op, bind, ret. rewrite Hp, Hrun. simpl.
      destruct (spec_ops os (x :: xs)) as [rs zs]. eexists; split; [reflexivity|done].
    + destruct xs as [|x xs].
      * destruct (IH s [] Hr) as (s2 & Hrun & Hr2).
        unfold run_op, bind, ret. rewrite (pop_front_empty s Hr), Hrun. simpl.
        destruct (spec_ops os []) as [rs zs]. eexists; split; [reflexivity|done].
      * destruct (pop_front_cons s x xs Hr) as (s1 & Hp & Hr1).
        destruct (IH s1 xs Hr1) as (s2 & Hrun & Hr2).
        unfold run_op, bind, ret. rewrite Hp, Hrun. simpl.
        destruct (spec_ops os xs) as [rs zs]. eexists; split; [reflexivity|done].
Qed.

Lemma chain_lookup h p ls xs i l :
  chain h p ls xs -> ls !! i = Some l ->
  exists x, h !! l = Some (mkNode 2 false x (ls !! S i)
                             (match i with 0 => p | S j => ls !! j end)).
Proof.
  revert p xs i. induction ls as [|l' ls IH]; intros p [|x xs] i Hc Hi;
    simpl in *; try done.
  destruct Hc as [Hl Hc]. destruct i as [|i]; simpl in *.
  - injection Hi as <-. exists x. rewrite Hl. by destruct ls.
  - destruct (IH _ _ i Hc Hi) as [y Hy]. exists y. rewrite Hy. by destruct i.
Qed.

Lemma walk_next_chain h p ls xs fuel :
  chain h p ls xs -> walk_next (length ls + fuel) h (List.hd_error ls) = ls.
Proof.
  revert p xs. induction ls as [|l ls IH]; intros p [|x xs] Hc; simpl in *; try done.
  - by destruct fuel.
  - destruct Hc as [Hl Hc]. rewrite Hl. simpl. f_equal. eapply IH; eauto.
Qed.

Lemma walk_prev_chain h p ls xs fuel :
  chain h p ls xs ->
  walk_prev (length ls + fuel) h (match last ls with Some l => Some l | None => p end)
  = rev ls ++ walk_prev fuel h p.
Proof.
  revert p xs fuel. induction ls as [|l ls IH]; intros p [|x xs] fuel Hc;
    simpl in Hc; try done.
  destruct Hc as [Hl Hc].
  replace (length (l :: ls) + fuel) with (length ls + S fuel) by (simpl; lia).
  replace (match last (l :: ls) with Some l0 => Some l0 | None => p end)
    with (match last ls with Some l0 => Some l0 | None => Some l end)
    by (rewrite last_cons; by destruct (last ls)).
  rewrite (IH _ _ (S fuel) Hc). simpl. rewrite Hl. simpl. by rewrite <- app_assoc.
Qed.

Lemma repr_size (s : List A) ls :
  NoDup ls -> dom (heap s) = list_to_set ls -> size (heap s) = length ls.
Proof.
  intros Hnd Hdom. rewrite <- size_dom, Hdom. by apply size_list_to_set.
Qed.

Lemma repr_forward (s : List A) xs ls :
  NoDup ls -> dom (heap s) = list_to_set ls -> head s = List.hd_error ls ->
  chain (heap s) None ls xs -> forward s = ls.
Proof.
  intros Hnd Hdom Hh Hc. unfold forward. rewrite (repr_size s ls Hnd Hdom), Hh.
  rewrite <- (Nat.add_0_r (length ls)). eapply walk_next_chain; eauto.
Qed.

Lemma repr_contents (s : List A) xs : repr s xs -> contents s = xs.
Proof.
  intros (ls & Hnd & Hdom & Hh & Ht & Hc). unfold contents.
  rewrite (repr_forward s xs ls Hnd Hdom Hh Hc).
  clear Hnd Hdom Hh Ht. revert Hc. generalize (@None loc) as p.
  revert xs. induction ls as [|l ls IH]; intros [|x xs] p Hc; simpl in *; try done.
  destruct Hc as [Hl Hc]. rewrite Hl. simpl. f_equal. eauto.
Qed.

Lemma repr_dl_invariant (s : List A) xs : repr s xs -> dl_invariant s.
Proof.
  intros (ls & Hnd & Hdom & Hh & Ht & Hc).
  assert (Hin : forall l c, heap s !! l = Some c -> exists i, ls !! i = Some l).
  { intros l c Hl. apply list_elem_of_lookup.
    apply (elem_of_list_to_set (C:=gset loc)). rewrite <- Hdom.
    apply elem_of_dom. eauto. }
  assert (Hcell : forall i l c, ls !! i = Some l -> heap s !! l = Some c ->
     next c = ls !! S i /\ prev c = match i with 0 => None | S j => ls !! j end).
  { intros i l c Hi Hl. destruct (chain_lookup _ _ _ _ i l Hc Hi) as [x Hx].
    rewrite Hl in Hx. injection Hx as ->. done. }
  repeat split.
  - intros H. rewrite Hh in H. rewrite Ht. by destruct ls.
  - intros H. rewrite Ht in H. rewrite Hh. destruct ls; [done|].
    by rewrite last_cons in H; destruct (last ls).
  - intros l H. rewrite Hh in H. destruct ls as [|l0 ls]; [done|].
    injection H as <-. destruct (chain_lookup _ _ _ _ 0 l0 Hc eq_refl) as [x Hx].
    eexists; split; [exact Hx|done].
  - intros l H. rewrite Ht, last_lookup in H.
    destruct (chain_lookup _ _ _ _ _ l Hc H) as [x Hx].
    eexists; split; [exact Hx|]. simpl.
    apply lookup_ge_None. apply lookup_lt_Some in H. lia.
  - intros l c m Hl Hn. destruct (Hin l c Hl) as [i Hi].
    destruct (Hcell i l c Hi Hl) as [Hnx _]. rewrite Hn in Hnx.
    destruct (chain_lookup _ _ _ _ (S i) m Hc (eq_sym Hnx)) as [x Hx].
    eexists; split; [exact Hx|]. simpl. by rewrite Hi.
  - intros l c m Hl Hp. destruct (Hin l c Hl) as [i Hi].
    destruct (Hcell i l c Hi Hl) as [_ Hpv]. rewrite Hp in Hpv.
    destruct i as [|j]; [done|].
    destruct (chain_lookup _ _ _ _ j m Hc (eq_sym Hpv)) as [x Hx].
    eexists; split; [exact Hx|]. simpl. by rewrite Hi.
  - rewrite (repr_forward s xs ls Hnd Hdom Hh Hc). unfold backward.
    rewrite (repr_size s ls Hnd Hdom), Ht, <- (Nat.add_0_r (length ls)).
    pose proof (walk_prev_chain _ _ _ _ 0 Hc) as Hw.
    replace (match last ls with Some l => Some l | None => None end)
      with (last ls) in Hw by (by destruct (last ls)).
    rewrite Hw. simpl. by rewrite app_nil_r, rev_involutive.
Qed.

Lemma drop_fuel_None fuel h : drop_fuel fuel None h = h.
Proof. by destruct fuel. Qed.

Lemma chain_length h p ls xs : chain h p ls xs -> length ls = length xs.
Proof.
  revert p xs. induction ls as [|l ls IH]; intros p [|x xs] Hc; simpl in *; try done.
  destruct Hc as [_ Hc]. f_equal. eauto.
Qed.

Lemma drop_list_size (s : List A) xs :
  repr s xs -> size (drop_list s) = if length xs <=? 1 then 0 else length xs.
Proof.
  intros (ls & Hnd & Hdom & Hh & Ht & Hc).
  pose proof (chain_length _ _ _ _ Hc) as Hlen.
  pose proof (repr_size s ls Hnd Hdom) as Hsz.
  destruct s as [hd tl h]; simpl in *. subst hd tl. unfold drop_list; simpl.
  destruct ls as [|l0 [|l1 ls]]; destruct xs as [|x0 [|x1 xs]]; simpl in Hc; try done.
  - destruct Hc as [Hl0 _]. unfold drop_link_h. simpl. rewrite Hl0. simpl.
    rewrite lookup_insert_eq. simpl. rewrite !drop_fuel_None, delete_insert_eq.
    rewrite map_size_delete, Hl0, Hsz. done.
  - destruct Hc as [Hl0 [Hl1 Hc]].
    assert (Htl : exists lt c, last (l0 :: l1 :: ls) = Some lt /\ lt <> l0 /\
                    h !! lt = Some c /\ rc c = 2).
    { rewrite last_cons_cons.
      destruct (last (l1 :: ls)) as [lt|] eqn:E.
      2:{ rewrite last_cons in E. by destruct (last ls). }
      assert (Hin : lt ∈ l1 :: ls).
      { apply list_elem_of_lookup. exists (pred (length (l1 :: ls))).
        by rewrite <- last_lookup. }
      apply list_elem_of_lookup in Hin as [i Hi].
      destruct (chain_lookup h (Some l0) (l1 :: ls) (x1 :: xs) i lt) as [x Hx];
        [simpl; auto|done|].
      exists lt; eexists; repeat split; [|exact Hx|done].
      intros ->. apply NoDup_cons in Hnd as [Hn _]. apply Hn.
      apply list_elem_of_lookup. eauto. }
    destruct Htl as (lt & c & Hlt & Hne & Hc' & Hrc). rewrite Hlt.
    unfold drop_link_h. simpl. rewrite Hl0. simpl.
    rewrite lookup_insert_ne by done. rewrite Hc', Hrc. simpl.
    rewrite map_size_insert, lookup_insert_ne, Hc' by done. simpl.
    rewrite map_size_insert, Hl0. simpl. rewrite Hsz. simpl in Hlen. simpl. lia.
Qed.

Lemma spec_ops_app (os1 os2 : list (op A)) xs :
  spec_ops (os1 ++ os2) xs =
  let '(rs1, ys) := spec_ops os1 xs in
  let '(rs2, zs) := spec_ops os2 ys in (rs1 ++ rs2, zs).
Proof.
  revert xs. induction os1 as [|o os1 IH]; intros xs; simpl.
  - by destruct (spec_ops os2 xs).
  - destruct (spec_op o xs) as [r ys]. rewrite IH.
    destruct (spec_ops os1 ys) as [rs1 ws]. by destruct (spec_ops os2 ws).
Qed.

Lemma spec_ops_pushes (vs xs : list A) :
  spec_ops (map PushFront vs) xs = (map (fun _ => Pushed) vs, rev vs ++ xs).
Proof.
  revert xs. induction vs as [|v vs IH]; intros xs; simpl; [done|].
  rewrite IH. by rewrite <- app_assoc.
Qed.

Lemma spec_ops_pops (ys : list A) :
  spec_ops (repeat PopFront (length ys)) ys = (map (fun v => Popped (Some v)) ys, []).
Proof. induction ys as [|y ys IH]; simpl; [done|]. by rewrite IH. Qed.

Lemma spec_ops_pops_app (ys zs : list A) :
  spec_ops (repeat PopFront (length ys)) (ys ++ zs) =
    (map (fun v => Popped (Some v)) ys, zs).
Proof. induction ys as [|y ys IH]; simpl; [done|]. by rewrite IH. Qed.

Lemma reachable_repr (os : list (op A)) :
  exists s, run_ops os new = Some (fst (spec_ops os []), s) /\
            repr s (snd (spec_ops os [])).
Proof. apply run_ops_spec, repr_new. Qed.

End Proofs.

(** ** Claims about [List] of src/fourth.rs *)

(** C1 (amended): [List] has no [Drop] impl, so discarding it only drops
    its [head] and [tail] handles. A list of length 0 or 1 is released
    entirely, but a list of length n >= 2 keeps all n nodes allocated: the
    [next]/[prev] cycles hold every strong count above zero. *)
Theorem discard_releases_only_short_lists {A : Type} (os : list (op A)) :
  exists rs s, run_ops os new = Some (rs, s) /\
    size (drop_list s) =
      (if length (contents s) <=? 1 then 0 else length (contents s)).
Proof.
  destruct (reachable_repr os) as (s & Hrun & Hr).
  exists (fst (spec_ops os [])), s. split; [done|].
  rewrite (repr_contents s _ Hr). by apply drop_list_size.
Qed.

(** C1 (counterexample): after [push_front(1); push_front(2)], discarding
    the list leaves both nodes allocated: the count does not return to zero. *)
Lemma discard_two_nodes_leaks :
  exists s, run_ops [PushFront 1; PushFront 2] (@new nat) = Some ([Pushed; Pushed], s) /\
    size (drop_list s) = 2 /\ size (drop_list s) <> 0.
Proof. eexists. split; [vm_compute; reflexivity|]. vm_compute. split; [reflexivity|discriminate]. Qed.

(** C2 (amended): the public surface of [List] is [new], [push_front] and
    [pop_front] only: [push_front] inserts at the head, [pop_front] removes
    and returns the head element or [None]; every run of them agrees with
    that reading of the sequence. *)
Theorem public_ops_front_only {A : Type} (os : list (op A)) :
  exists s, run_ops os new = Some (fst (spec_ops os []), s) /\
            contents s = snd (spec_ops os []).
Proof.
  destruct (reachable_repr os) as (s & Hrun & Hr).
  exists s. split; [done|]. by apply repr_contents.
Qed.

(** C2 (counterexample): on the list [1; 2] (head first), no public
    operation returns the tail element 2 (as [pop_back]/[peek_back] would)
    nor returns the head element 1 while leaving the list unchanged (as
    [peek_front] would). *)
Lemma no_back_or_peek_operation :
  ~ exists (o : op nat) r s',
      (match run_ops [PushFront 2; PushFront 1] new with
       | Some (_, s) => run_op o s | None => None end) = Some (r, s') /\
      (r = Popped (Some 2) \/ (r = Popped (Some 1) /\ contents s' = [1; 2])).
Proof.
  intros (o & r & s' & Hrun & Hr). destruct o as [x|]; vm_compute in Hrun;
    injection Hrun as <- <-; destruct Hr as [Hr | [Hr Hc]]; try discriminate.
Qed.

(** C3: from [new], every sequence of [push_front]/[pop_front] runs to the
    end without a panic: no [borrow_mut] finds an outstanding [RefMut] and
    no [Rc::try_unwrap(..).ok().unwrap()] finds a second strong reference. *)
Theorem public_ops_never_panic {A : Type} (os : list (op A)) :
  exists rs s, run_ops os new = Some (rs, s).
Proof. destruct (reachable_repr os) as (s & Hrun & _). eauto. Qed.

(** C4 (amended): [List] has no [push_back]/[pop_back]; after every
    sequence of the public operations [push_front]/[pop_front] the
    doubly-linked invariant holds: head's [prev] and tail's [next] are
    empty, head is empty iff tail is, every [next] has a [prev] pointing
    back (and symmetrically), and the forward walk is the reverse of the
    backward walk. *)
Theorem dl_invariant_after_every_op {A : Type} (os : list (op A)) :
  exists rs s, run_ops os new = Some (rs, s) /\ dl_invariant s.
Proof.
  destruct (reachable_repr os) as (s & Hrun & Hr).
  exists (fst (spec_ops os [])), s. split; [done|]. by eapply repr_dl_invariant.
Qed.

(** C4 (counterexample): no public operation extends the list [1] at its
    back to [1; 2], so the mixed sequences with [push_back] cannot be run. *)
Lemma no_push_back_operation :
  ~ exists (o : op nat) r s',
      (match run_ops [PushFront 1] new with
       | Some (_, s) => run_op o s | None => None end) = Some (r, s') /\
      contents s' = [1; 2].
Proof.
  intros (o & r & s' & Hrun & Hc). destruct o as [x|]; vm_compute in Hrun;
    injection Hrun as <- <-; vm_compute in Hc; congruence.
Qed.

(** C5: on any list reachable through the public operations, N calls of
    [push_front] followed by N calls of [pop_front] run without panicking,
    return the pushed values in reverse order, and leave the list with the
    contents it had before the pushes. *)
Theorem push_then_pop_front_lifo {A : Type} (os : list (op A)) (rs : list (out A))
    (s : List A) (vs : list A) :
  run_ops os new = Some (rs, s) ->
  exists s',
    run_ops (map PushFront vs ++ repeat PopFront (length vs)) s =
      Some (map (fun _ => Pushed) vs ++ map (fun v => Popped (Some v)) (rev vs), s') /\
    contents s' = contents s.
Proof.
  intros Hs. destruct (reachable_repr os) as (s0 & Hrun0 & Hr0).
  rewrite Hs in Hrun0. injection Hrun0 as _ <-.
  destruct (run_ops_spec (map PushFront vs ++ repeat PopFront (length vs)) s _ Hr0)
    as (s' & Hrun & Hr).
  rewrite spec_ops_app, spec_ops_pushes in Hrun, Hr.
  rewrite <- length_rev, spec_ops_pops_app in Hrun, Hr. simpl in Hrun, Hr.
  rewrite length_rev in Hrun. exists s'. split; [done|].
  by rewrite (repr_contents s' _ Hr), (repr_contents s _ Hr0).
Qed.

(** The repository's test shape: [push_front] 4 and 5 onto the list [1],
    then two [pop_front]s return 5 and 4 and leave [1]. *)
Lemma push_then_pop_front_lifo_witness :
  exists rs s, run_ops [PushFront 1] (@new nat) = Some (rs, s) /\
  exists s',
    run_ops (map PushFront [4; 5] ++ repeat PopFront (length [4; 5])) s =
      Some (map (fun _ => Pushed) [4; 5] ++ map (fun v => Popped (Some v)) (rev [4; 5]), s') /\
    contents s' = contents s.
Proof.
  eexists _, _. split; [reflexivity|].
  eapply (push_then_pop_front_lifo [PushFront 1] _ _ [4; 5]). reflexivity.
Defined.

(** C6: on a list whose [head] is empty, [pop_front] returns [None]
    without panicking and leaves the list unchanged, however often it is
    repeated. *)
Theorem pop_front_empty_idempotent {A : Type} (s : List A) (k : nat) :
  head s = None ->
  run_ops (repeat PopFront k) s = Some (repeat (Popped None) k, s).
Proof.
  intros Hh. induction k as [|k IH]; simpl; [done|].
  destruct s as [hd tl h]; simpl in Hh; subst hd.
  unfold run_op, bind, ret. simpl. unfold bind, take_head, ret. simpl.
  rewrite IH. done.
Qed.

Lemma pop_front_empty_idempotent_witness :
  head (@new nat) = None /\
  run_ops (repeat PopFront 3) (@new nat) = Some (repeat (Popped None) 3, new).
Proof. split; [reflexivity|]. apply pop_front_empty_idempotent. reflexivity. Defined.

(** ** Further properties of [List] of src/fourth.rs *)

Section Extra.
Context {A : Type}.

Lemma repr_cells (s : List A) xs :
  repr s xs ->
  size (heap s) = length xs /\
  forall l c, heap s !! l = Some c -> rc c = 2 /\ borrowed c = false.
Proof.
  intros (ls & Hnd & Hdom & Hh & Ht & Hc). split.
  - rewrite (repr_size s ls Hnd Hdom). eapply chain_length; eauto.
  - intros l c Hl.
    assert (Hin : l ∈ ls).
    { apply (elem_of_list_to_set (C:=gset loc)). rewrite <- Hdom.
      apply elem_of_dom. eauto. }
    apply list_elem_of_lookup in Hin as [i Hi].
    destruct (chain_lookup _ _ _ _ i l Hc Hi) as [x Hx].
    rewrite Hl in Hx. injection Hx as ->. done.
Qed.

Lemma push_pop_front_id (s : List A) xs x :
  repr s xs -> bind (push_front x) (fun _ => pop_front) s = Some (Some x, s).
Proof.
  intros (ls & Hnd & Hdom & Hh & Ht & Hc).
  destruct s as [hd tl h]; simpl in *. subst hd tl.
  set (n := fresh (dom h)).
  assert (Hn : h !! n = None).
  { apply not_elem_of_dom. apply is_fresh. }
  destruct ls as [|l0 ls].
  - destruct xs; [|done].
    unfold push_front, pop_front. run. fold n. run.
    apply dom_empty_inv_L in Hdom. subst h.
    rewrite delete_insert_eq. done.
  - destruct xs as [|x0 xs]; [done|]. destruct Hc as [Hl0 Hc].
    assert (n <> l0) by (intros ->; congruence).
    unfold push_front, pop_front. run. fold n. run.
    do 3 f_equal. apply map_eq. intros i.
    destruct (decide (i = n)) as [->|Hin]; [by simplify_map_eq|].
    destruct (decide (i = l0)) as [->|Hil]; by simplify_map_eq.
Qed.

End Extra.

(** Between operations, a list reached from [new] holds exactly one live
    allocation per element, and every live node has strong count 2 (its two
    neighbours, or the [head]/[tail] handles) and no outstanding borrow. *)
Theorem reachable_heap_shape {A : Type} (os : list (op A)) :
  exists rs s, run_ops os new = Some (rs, s) /\
    size (heap s) = length (contents s) /\
    forall l c, heap s !! l = Some c -> rc c = 2 /\ borrowed c = false.
Proof.
  destruct (reachable_repr os) as (s & Hrun & Hr).
  exists (fst (spec_ops os [])), s. split; [done|].
  rewrite (repr_contents s _ Hr). by apply repr_cells.
Qed.

(** On any list reached from [new], [push_front(x)] followed by
    [pop_front()] returns [Some(x)] and leaves the list, including its heap,
    exactly as it was. *)
Theorem push_front_pop_front_restores {A : Type} (os : list (op A)) (x : A) :
  exists rs s, run_ops os new = Some (rs, s) /\
    run_ops [PushFront x; PopFront] s = Some ([Pushed; Popped (Some x)], s).
Proof.
  destruct (reachable_repr os) as (s & Hrun & Hr).
  exists (fst (spec_ops os [])), s. split; [done|].
  pose proof (push_pop_front_id s _ x Hr) as Hpp.
  destruct (push_front_spec s _ x Hr) as (s1 & Hp & _).
  unfold bind in Hpp. rewrite Hp in Hpp.
  simpl. unfold run_op, bind, ret. rewrite Hp, Hpp. done.
Qed.

End Fourth.

(** * The finger list of src/silly1.rs *)

Module Silly1.

Section Model.
Context {A : Type}.

(** [struct Node<T> { elem: T, next: Link<T> }] with
    [type Link<T> = Option<Box<Node<T>>>]; every node is owned by exactly
    one link, so the chain is a value. *)
#[local] Set Warnings "-register-all".
Inductive Node := mkNode (elem : A) (next : option Node).

Record Stack := mkStack { head : option Node }.

(** [List { left: Stack<T>, right: Stack<T> }]. *)
Record List := mkList { left : Stack; right : Stack }.

Definition Stack_new : Stack := mkStack None.

(** [Stack::push_node]: [node.next = self.head.take(); self.head = Some(node)]. *)
Definition push_node (node : Node) (s : Stack) : Stack :=
  match node with mkNode e _ => mkStack (Some (mkNode e (head s))) end.

(** [Stack::push]. *)
Definition push (x : A) (s : Stack) : Stack := push_node (mkNode x None) s.

(** [Stack::pop_node]: the head node is detached with its [next] taken. *)
Definition pop_node (s : Stack) : option (Node * Stack) :=
  match head s with
  | Some (mkNode e nx) => Some (mkNode e None, mkStack nx)
  | None => None
  end.

(** [Stack::pop]. *)
Definition pop (s : Stack) : option A * Stack :=
  match pop_node s with
  | Some (mkNode e _, s') => (Some e, s')
  | None => (None, s)
  end.

(** [Stack::peek]. *)
Definition peek (s : Stack) : option A :=
  match head s with Some (mkNode e _) => Some e | None => None end.

(** [List::new] and the side operations. *)
Definition new : List := mkList Stack_new Stack_new.

Definition push_left (x : A) (d : List) : List := mkList (push x (left d)) (right d).
Definition push_right (x : A) (d : List) : List := mkList (left d) (push x (right d)).

Definition pop_left (d : List) : option A * List :=
  let '(r, l') := pop (left d) in (r, mkList l' (right d)).
Definition pop_right (d : List) : option A * List :=
  let '(r, r') := pop (right d) in (r, mkList (left d) r').

Definition peek_left (d : List) : option A := peek (left d).
Definition peek_right (d : List) : option A := peek (right d).

(** [List::go_left]: the top node of [left] is moved onto [right]. *)
Definition go_left (d : List) : bool * List :=
  match pop_node (left d) with
  | Some (node, l') => (true, mkList l' (push_node node (right d)))
  | None => (false, d)
  end.

(** [List::go_right]. *)
Definition go_right (d : List) : bool * List :=
  match pop_node (right d) with
  | Some (node, r') => (true, mkList (push_node node (left d)) r')
  | None => (false, d)
  end.

(** [while list.go_left() {}], with a bound on the number of iterations. *)
Fixpoint go_left_while (fuel : nat) (d : List) : option List :=
  match fuel with
  | 0 => None
  | S f => let '(moved, d') := go_left d in if moved then go_left_while f d' else Some d'
  end.

Fixpoint go_right_while (fuel : nat) (d : List) : option List :=
  match fuel with
  | 0 => None
  | S f => let '(moved, d') := go_right d in if moved then go_right_while f d' else Some d'
  end.

(** Repeated pops from one side. *)
Fixpoint pop_right_n (k : nat) (d : List) : list (option A) * List :=
  match k with
  | 0 => ([], d)
  | S k' => let '(r, d') := pop_right d in let '(rs, d'') := pop_right_n k' d' in (r :: rs, d'')
  end.

Fixpoint pop_left_n (k : nat) (d : List) : list (option A) * List :=
  match k with
  | 0 => ([], d)
  | S k' => let '(r, d') := pop_left d in let '(rs, d'') := pop_left_n k' d' in (r :: rs, d'')
  end.

End Model.

Arguments Node : clear implicits.
Arguments Stack : clear implicits.
Arguments List : clear implicits.

Section Proofs.
Context {A : Type}.

(** The chain holding [xs], top first. *)
Fixpoint chain_of (xs : list A) : option (Node A) :=
  match xs with [] => None | x :: xs' => Some (mkNode x (chain_of xs')) end.

Lemma push_left_chain (ls rs xs : list A) :
  foldl (fun d x => push_left x d) (mkList (mkStack (chain_of ls)) (mkStack (chain_of rs))) xs
  = mkList (mkStack (chain_of (rev xs ++ ls))) (mkStack (chain_of rs)).
Proof.
  revert ls. induction xs as [|x xs IH]; intros ls; simpl; [done|].
  rewrite <- app_assoc. exact (IH (x :: ls)).
Qed.

Lemma push_right_chain (ls rs xs : list A) :
  foldl (fun d x => push_right x d) (mkList (mkStack (chain_of ls)) (mkStack (chain_of rs))) xs
  = mkList (mkStack (chain_of ls)) (mkStack (chain_of (rev xs ++ rs))).
Proof.
  revert rs. induction xs as [|x xs IH]; intros rs; simpl; [done|].
  rewrite <- app_assoc. exact (IH (x :: rs)).
Qed.

Lemma go_left_while_chain (ls rs : list A) fuel :
  length ls < fuel ->
  go_left_while fuel (mkList (mkStack (chain_of ls)) (mkStack (chain_of rs)))
  = Some (mkList (mkStack None) (mkStack (chain_of (rev ls ++ rs)))).
Proof.
  revert rs fuel. induction ls as [|x ls IH]; intros rs [|fuel] Hf; simpl in *; try lia.
  - done.
  - unfold go_left; simpl. rewrite (IH (x :: rs)) by lia. by rewrite <- app_assoc.
Qed.

Lemma go_right_while_chain (ls rs : list A) fuel :
  length rs < fuel ->
  go_right_while fuel (mkList (mkStack (chain_of ls)) (mkStack (chain_of rs)))
  = Some (mkList (mkStack (chain_of (rev rs ++ ls))) (mkStack None)).
Proof.
  revert ls fuel. induction rs as [|x rs IH]; intros ls [|fuel] Hf; simpl in *; try lia.
  - done.
  - unfold go_right; simpl. rewrite (IH (x :: ls)) by lia. by rewrite <- app_assoc.
Qed.

Lemma pop_right_n_chain (l : Stack A) (xs : list A) :
  pop_right_n (length xs) (mkList l (mkStack (chain_of xs)))
  = (map Some xs, mkList l (mkStack None)).
Proof.
  induction xs as [|x xs IH]; simpl; [done|].
  unfold pop_right, pop, pop_node; simpl. by rewrite IH.
Qed.

Lemma pop_left_n_chain (r : Stack A) (xs : list A) :
  pop_left_n (length xs) (mkList (mkStack (chain_of xs)) r)
  = (map Some xs, mkList (mkStack None) r).
Proof.
  induction xs as [|x xs IH]; simpl; [done|].
  unfold pop_left, pop, pop_node; simpl. by rewrite IH.
Qed.

End Proofs.

(** ** Claims about [List] of src/silly1.rs *)

(** C7: when the left stack is empty, [pop_left] returns [None] and changes
    nothing, whatever the right stack holds; symmetrically for [pop_right]
    with an empty right stack. *)
Theorem pop_empty_side_only {A : Type} (d : List A) :
  (head (left d) = None -> pop_left d = (None, d)) /\
  (head (right d) = None -> pop_right d = (None, d)).
Proof.
  destruct d as [[l] [r]]; simpl. split; intros ->; reflexivity.
Qed.

Lemma pop_empty_side_only_witness :
  pop_left (push_right 1 (@new nat)) = (None, push_right 1 new) /\
  pop_right (push_left 2 (@new nat)) = (None, push_left 2 new).
Proof.
  split.
  - apply (proj1 (pop_empty_side_only (push_right 1 new))). reflexivity.
  - apply (proj2 (pop_empty_side_only (push_left 2 new))). reflexivity.
Defined.

(** C8: pushing k elements onto one side of an empty list and stepping them
    all across (until [go_left], resp. [go_right], returns false) leaves the
    other side popping exactly those k elements in push order, after which
    the list is empty again. *)
Theorem step_all_round_trip {A : Type} (vs : list A) (fuel : nat) :
  length vs < fuel ->
  (exists d, go_left_while fuel (foldl (fun d x => push_left x d) new vs) = Some d /\
             pop_right_n (length vs) d = (map Some vs, new)) /\
  (exists d, go_right_while fuel (foldl (fun d x => push_right x d) new vs) = Some d /\
             pop_left_n (length vs) d = (map Some vs, new)).
Proof.
  intros Hf. split.
  - pose proof (push_left_chain [] [] vs) as Hp. rewrite app_nil_r in Hp.
    change (@new A) with (mkList (mkStack (chain_of (@nil A))) (mkStack (chain_of (@nil A)))).
    rewrite Hp, go_left_while_chain by (rewrite length_rev; lia).
    eexists; split; [reflexivity|].
    rewrite rev_involutive, app_nil_r. apply pop_right_n_chain.
  - pose proof (push_right_chain [] [] vs) as Hp. rewrite app_nil_r in Hp.
    change (@new A) with (mkList (mkStack (chain_of (@nil A))) (mkStack (chain_of (@nil A)))).
    rewrite Hp, go_right_while_chain by (rewrite length_rev; lia).
    eexists; split; [reflexivity|].
    rewrite rev_involutive, app_nil_r. apply pop_left_n_chain.
Qed.

Lemma step_all_round_trip_witness :
  length [0; 1; 2] < 4 /\
  ((exists d, go_left_while 4 (foldl (fun d x => push_left x d) new [0; 1; 2]) = Some d /\
              pop_right_n 3 d = ([Some 0; Some 1; Some 2], new)) /\
   (exists d, go_right_while 4 (foldl (fun d x => push_right x d) new [0; 1; 2]) = Some d /\
              pop_left_n 3 d = ([Some 0; Some 1; Some 2], new))).
Proof. split; [simpl; lia|]. apply (step_all_round_trip [0; 1; 2] 4). simpl; lia. Defined.

(** ** Further properties of src/silly1.rs *)

Section Extra.
Context {A : Type}.

(** The elements of a chain, top first. *)
Fixpoint chain_elems (n : Node A) : list A :=
  match n with
  | mkNode e nx => e :: match nx with None => [] | Some n' => chain_elems n' end
  end.

Definition node_elems (o : option (Node A)) : list A :=
  match o with None => [] | Some n => chain_elems n end.

Definition stack_elems (s : Stack A) : list A := node_elems (head s).

(** The logical sequence of the finger list, read left to right: [left]
    top-to-bottom reversed, then [right] top-to-bottom. *)
Definition sequence (d : List A) : list A :=
  rev (stack_elems (left d)) ++ stack_elems (right d).

End Extra.

(** [Stack::push] then [Stack::pop] returns the pushed element and gives
    back the stack as it was; [Stack::peek] after [push] sees the element. *)
Theorem stack_push_pop {A : Type} (s : Stack A) (x : A) :
  pop (push x s) = (Some x, s) /\ peek (push x s) = Some x.
Proof. by destruct s. Qed.

(** [go_left] reports whether it moved: on an empty [left] it returns false
    and changes nothing; after a successful [go_left], [go_right] moves the
    same node back and restores the list. Symmetrically for [go_right]. *)
Theorem go_left_go_right_inverse {A : Type} (d : List A) :
  (head (left d) = None -> go_left d = (false, d)) /\
  (head (right d) = None -> go_right d = (false, d)) /\
  (forall d', go_left d = (true, d') -> go_right d' = (true, d)) /\
  (forall d', go_right d = (true, d') -> go_left d' = (true, d)).
Proof.
  destruct d as [[[[x l]|]] [[[y r]|]]]; unfold go_left, go_right, pop_node; simpl;
    repeat split; intros; try congruence;
    match goal with H : (_, _) = (_, _) |- _ => injection H as <- end; reflexivity.
Qed.

Lemma go_left_go_right_inverse_witness :
  go_left (push_right 1 (@new nat)) = (false, push_right 1 new) /\
  go_right (push_right 2 (@new nat)) = (true, push_left 2 new).
Proof.
  split.
  - apply (proj1 (go_left_go_right_inverse (push_right 1 new))). reflexivity.
  - apply (proj1 (proj2 (proj2 (go_left_go_right_inverse (push_left 2 new))))).
    reflexivity.
Defined.

(** Stepping moves the cursor, never the elements: [go_left] and
    [go_right] leave the left-to-right sequence unchanged. *)
Theorem go_preserves_sequence {A : Type} (d : List A) :
  sequence (snd (go_left d)) = sequence d /\ sequence (snd (go_right d)) = sequence d.
Proof.
  destruct d as [[[[x l]|]] [[[y r]|]]]; unfold go_left, go_right, pop_node, sequence;
    simpl; split; try done; by rewrite <- app_assoc.
Qed.

(** [push_left] pushes onto the [left] stack, leaving [right] alone, so the
    element lands just left of the cursor; [push_right] symmetrically. A
    [pop_left] that returns an element takes the top of the [left] stack and
    leaves [right] alone; [pop_right] symmetrically. *)
Theorem push_pop_at_cursor {A : Type} (d : List A) (x : A) :
  (stack_elems (left (push_left x d)) = x :: stack_elems (left d) /\
   right (push_left x d) = right d /\
   sequence (push_left x d) = rev (stack_elems (left d)) ++ x :: stack_elems (right d)) /\
  (left (push_right x d) = left d /\
   stack_elems (right (push_right x d)) = x :: stack_elems (right d) /\
   sequence (push_right x d) = rev (stack_elems (left d)) ++ x :: stack_elems (right d)) /\
  (forall y d', pop_left d = (Some y, d') ->
     stack_elems (left d) = y :: stack_elems (left d') /\ right d' = right d) /\
  (forall y d', pop_right d = (Some y, d') ->
     left d' = left d /\ stack_elems (right d) = y :: stack_elems (right d')).
Proof.
  destruct d as [[[[y l]|]] [[[z r]|]]]; unfold pop_left, pop_right, pop, pop_node, sequence;
    simpl; repeat split; intros; try discriminate; try (by rewrite <- app_assoc);
    match goal with H : (_, _) = (_, _) |- _ => injection H as -> <- end; done.
Qed.

Lemma push_pop_at_cursor_witness :
  pop_left (push_left 7 (push_right 1 (@new nat))) = (Some 7, push_right 1 new) /\
  stack_elems (left (push_left 7 (push_right 1 (@new nat)))) =
    7 :: stack_elems (left (push_right 1 (@new nat))) /\
  right (push_right 1 (@new nat)) = right (push_left 7 (push_right 1 (@new nat))).
Proof.
  split; [reflexivity|].
  apply (proj1 (proj2 (proj2 (push_pop_at_cursor (push_left 7 (push_right 1 new)) 7)))).
  reflexivity.
Defined.

End Silly1.

(** * The persistent list of src/third_with_arc.rs *)

Module ThirdArc.

Section Model.
Context {A : Type}.

(** [struct Node<T> { elem: T, next: Option<Arc<Node<T>>> }]: nodes are
    immutable once built, so a shared node is modelled by its value. *)
#[local] Set Warnings "-register-all".
Inductive Node := mkNode (elem : A) (next : option Node).

Record List := mkList { head : option Node }.

(** [List::new]. *)
Definition new : List := mkList None.

(** [List::append]: a new node in front of a clone of [self.head]. *)
Definition append (x : A) (l : List) : List := mkList (Some (mkNode x (head l))).

(** [List::tail]: [self.head.as_ref().and_then(|node| node.next.clone())]. *)
Definition tail (l : List) : List :=
  mkList (match head l with Some (mkNode _ nx) => nx | None => None end).

(** [List::head], the element at the front. *)
Definition head_elem (l : List) : option A :=
  match head l with Some (mkNode e _) => Some e | None => None end.

End Model.

Arguments List : clear implicits.

(** C9: [tail] of the empty list is the empty list again: its [head] is
    [None], and any number of further [tail] calls stays empty. *)
Theorem tail_of_empty_is_empty {A : Type} (k : nat) :
  Nat.iter k tail (tail (@new A)) = new /\ head_elem (Nat.iter k tail (tail (@new A))) = None.
Proof. induction k as [|k [IH _]]; simpl; [done|]. rewrite IH. done. Qed.

(** ** Further properties of src/third_with_arc.rs *)

Section Iter.
Context {A : Type}.

(** [struct Iter<'a, T> { next: Option<&'a Node<T>> }]. *)
Record Iter := mkIter { it_next : option (Node (A:=A)) }.

(** [List::iter]. *)
Definition iter (l : List A) : Iter := mkIter (head l).

(** [Iterator::next] for [Iter]: yields the element and steps to [next];
    once exhausted it keeps returning [None]. *)
Definition iter_next (it : Iter) : option A * Iter :=
  match it_next it with
  | Some (mkNode e nx) => (Some e, mkIter nx)
  | None => (None, it)
  end.

(** The results of [k] successive [next] calls. *)
Fixpoint iter_take (k : nat) (it : Iter) : list (option A) :=
  match k with
  | 0 => []
  | S k' => let '(r, it') := iter_next it in r :: iter_take k' it'
  end.

End Iter.

Arguments Iter : clear implicits.

(** [append(x)] puts [x] at the front without touching the original list:
    [head] of the result is [x] and its [tail] is the original list. *)
Theorem append_head_tail {A : Type} (l : List A) (x : A) :
  head_elem (append x l) = Some x /\ tail (append x l) = l.
Proof. by destruct l. Qed.

(** Iterating a list built by appending [xs] one by one to [new] yields
    the elements in reverse append order (most recent first), then [None]. *)
Theorem iter_yields_reverse_append_order {A : Type} (xs : list A) :
  iter_take (S (length xs)) (iter (foldl (fun l x => append x l) new xs))
  = map Some (rev xs) ++ [None].
Proof.
  assert (H : forall (l : List A) k,
    iter_take (length xs + S k) (iter (foldl (fun l x => append x l) l xs))
    = map Some (rev xs) ++ iter_take (S k) (iter l)).
  { induction xs as [|x xs IH]; intros l k; [done|].
    simpl foldl. replace (length (x :: xs) + S k) with (length xs + S (S k)) by (simpl; lia).
    rewrite IH. simpl rev; rewrite map_app, <- app_assoc. by destruct l. }
  replace (S (length xs)) with (length xs + S 0) by lia.
  rewrite H. done.
Qed.

End ThirdArc.

(** * The queue of src/fifth.rs *)

Module Fifth.

Definition loc := nat.

Section Model.
Context {A : Type}.

(** A [Box<Node<T>>] allocation, [struct Node<T> { elem: T, next: Link<T> }]. *)
Record Node := mkNode { elem : A; next : option loc }.

(** [struct List<T> { head: Link<T>, tail: *mut Node<T> }] ([None] is the
    null pointer) together with the heap of live boxes. *)
Record List := mkList {
  head : option loc;
  tail : option loc;
  heap : gmap loc Node
}.

(** Dropping an owned [Option<Box<Node>>]: the chain it owns is freed. *)
Fixpoint drop_fuel (fuel : nat) (o : option loc) (h : gmap loc Node) : gmap loc Node :=
  match fuel, o with
  | S f, Some l =>
      match h !! l with Some c => drop_fuel f (next c) (delete l h) | None => h end
  | _, _ => h
  end.

Definition drop_link (o : option loc) (h : gmap loc Node) : gmap loc Node :=
  drop_fuel (S (size h)) o h.

(** [List::new]. *)
Definition new : List := mkList None None ∅.

(** [List::push]; [None] is undefined behaviour (a dangling [self.tail]). *)
Definition push (x : A) (s : List) : option List :=
  let new_tail := fresh (dom (heap s)) in
  let h := <[new_tail := mkNode x None]> (heap s) in
  match tail s with
  | Some t =>
      (* unsafe: the old tail box, reached through the raw pointer, gets next = Some(new_tail) *)
      match h !! t with
      | Some c => Some (mkList (head s) (Some new_tail)
                          (<[t := mkNode (elem c) (Some new_tail)]> (drop_link (next c) h)))
      | None => None
      end
  | None =>
      (* self.head = Some(new_tail); *)
      Some (mkList (Some new_tail) (Some new_tail) (drop_link (head s) h))
  end.

(** [List::pop]: the head box is moved out and freed; when the list becomes
    empty the tail pointer is reset to null. *)
Definition pop (s : List) : option (option A * List) :=
  match head s with
  | None => Some (None, s)
  | Some l =>
      match heap s !! l with
      | Some c =>
          let t := match next c with None => None | Some _ => tail s end in
          Some (Some (elem c), mkList (next c) t (delete l (heap s)))
      | None => None
      end
  end.

Inductive op := Push (x : A) | Pop.
Inductive out := Pushed | Popped (o : option A).

Definition run_op (o : op) (s : List) : option (out * List) :=
  match o with
  | Push x => match push x s with Some s' => Some (Pushed, s') | None => None end
  | Pop => match pop s with Some (r, s') => Some (Popped r, s') | None => None end
  end.

Fixpoint run_ops (os : list op) (s : List) : option (list out * List) :=
  match os with
  | [] => Some ([], s)
  | o :: os' =>
      match run_op o s with
      | Some (r, s') =>
          match run_ops os' s' with Some (rs, s'') => Some (r :: rs, s'') | None => None end
      | None => None
      end
  end.

(** The spec's reading: a FIFO queue of elements. *)
Definition spec_op (o : op) (xs : list A) : out * list A :=
  match o, xs with
  | Push x, _ => (Pushed, xs ++ [x])
  | Pop, [] => (Popped None, [])
  | Pop, x :: xs' => (Popped (Some x), xs')
  end.

Fixpoint spec_ops (os : list op) (xs : list A) : list out * list A :=
  match os with
  | [] => ([], xs)
  | o :: os' =>
      let '(r, ys) := spec_op o xs in
      let '(rs, zs) := spec_ops os' ys in (r :: rs, zs)
  end.

(** The boxes [ls], from head to tail, hold [xs], each [next] naming the
    following box. *)
Fixpoint chain (h : gmap loc Node) (ls : list loc) (xs : list A) : Prop :=
  match ls, xs with
  | [], [] => True
  | l :: ls', x :: xs' => h !! l = Some (mkNode x (List.hd_error ls')) /\ chain h ls' xs'
  | _, _ => False
  end.

Definition repr (s : List) (xs : list A) : Prop :=
  exists ls, NoDup ls /\ dom (heap s) = list_to_set ls /\
    head s = List.hd_error ls /\ tail s = last ls /\ chain (heap s) ls xs.

End Model.

Arguments Node : clear implicits.
Arguments List : clear implicits.
Arguments op : clear implicits.
Arguments out : clear implicits.

Section Proofs.
Context {A : Type}.
Implicit Types (h : gmap loc (Node A)) (ls : list loc) (xs : list A).

Lemma qchain_insert_notin h ls xs l c :
  l ∉ ls -> chain h ls xs -> chain (<[l:=c]> h) ls xs.
Proof.
  revert xs. induction ls as [|l' ls IH]; intros [|x xs]; simpl; try tauto.
  intros Hn [Hl Hc]. rewrite elem_of_cons in Hn. split.
  - rewrite lookup_insert_ne; [done|]. intros ->. apply Hn; auto.
  - apply IH; auto.
Qed.

Lemma qchain_delete_notin h ls xs l :
  l ∉ ls -> chain h ls xs -> chain (delete l h) ls xs.
Proof.
  revert xs. induction ls as [|l' ls IH]; intros [|x xs]; simpl; try tauto.
  intros Hn [Hl Hc]. rewrite elem_of_cons in Hn. split.
  - rewrite lookup_delete_ne; [done|]. intros ->. apply Hn; auto.
  - apply IH; auto.
Qed.

Lemma chain_last h ls xs t :
  chain h ls xs -> last ls = Some t -> exists xt, h !! t = Some (mkNode xt None).
Proof.
  revert xs. induction ls as [|l ls IH]; intros [|x xs] Hc Ht; simpl in Hc; try done.
  destruct Hc as [Hl Hc]. destruct ls as [|l' ls].
  - injection Ht as <-. eauto.
  - rewrite last_cons_cons in Ht. eauto.
Qed.

Lemma chain_snoc h ls xs t xt n x :
  chain h ls xs -> NoDup ls -> last ls = Some t -> h !! t = Some (mkNode xt None) ->
  n ∉ ls ->
  chain (<[t := mkNode xt (Some n)]> (<[n := mkNode x None]> h)) (ls ++ [n]) (xs ++ [x]).
Proof.
  revert xs. induction ls as [|l ls IH]; intros [|x0 xs] Hc Hnd Ht Htc Hn;
    simpl in Hc; try done.
  destruct Hc as [Hl Hc]. apply NoDup_cons in Hnd as [Hlls Hnd].
  rewrite elem_of_cons in Hn.
  destruct ls as [|l' ls].
  - destruct xs; [|done]. injection Ht as <-. rewrite Hl in Htc. injection Htc as ->.
    simpl. split; [by simplify_map_eq|]. split; [|done].
    rewrite lookup_insert_ne by (intros ->; apply Hn; auto). by simplify_map_eq.
  - rewrite last_cons_cons in Ht.
    assert (Hlt : l <> t).
    { intros ->. apply Hlls. apply list_elem_of_lookup.
      exists (pred (length (l' :: ls))). by rewrite <- last_lookup. }
    split.
    + simpl. rewrite lookup_insert_ne by done.
      rewrite lookup_insert_ne by (intros ->; apply Hn; auto). done.
    + apply (IH xs); auto.
Qed.

Lemma push_spec (s : List A) xs x :
  repr s xs -> exists s', push x s = Some s' /\ repr s' (xs ++ [x]).
Proof.
  intros (ls & Hnd & Hdom & Hh & Ht & Hc).
  destruct s as [hd tl h]; simpl in *. subst hd tl.
  set (n := fresh (dom h)).
  assert (Hn : n ∉ dom h) by apply is_fresh.
  assert (Hnl : n ∉ ls).
  { intros Hin. apply Hn. rewrite Hdom. by apply elem_of_list_to_set. }
  unfold push; simpl. fold n.
  destruct (last ls) as [t|] eqn:Hlast.
  - destruct (chain_last h ls xs t Hc Hlast) as [xt Hxt].
    assert (Hnt : n <> t) by (intros ->; apply not_elem_of_dom in Hn; congruence).
    rewrite lookup_insert_ne by congruence. rewrite Hxt. simpl.
    unfold drop_link. simpl.
    eexists; split; [reflexivity|].
    exists (ls ++ [n]). simpl. repeat split.
    + apply NoDup_app. repeat split; [done| |apply NoDup_singleton].
      intros y Hy Hy'. apply list_elem_of_singleton in Hy'. congruence.
    + rewrite !dom_insert_L, Hdom, list_to_set_app_L.
      assert (t ∈ (list_to_set ls : gset loc)).
      { apply elem_of_list_to_set, list_elem_of_lookup.
        exists (pred (length ls)). by rewrite <- last_lookup. }
      set_solver.
    + destruct ls; [done|]. done.
    + by rewrite last_snoc.
    + by apply (chain_snoc h ls xs t xt n x).
  - destruct ls as [|l ls].
    2:{ rewrite last_cons in Hlast. by destruct (last ls). }
    destruct xs; [|done].
    apply dom_empty_inv_L in Hdom. subst h.
    eexists; split; [reflexivity|].
    exists [n]. simpl. repeat split; try done.
    + apply NoDup_singleton.
Qed.

Lemma pop_empty (s : List A) : repr s [] -> pop s = Some (None, s).
Proof.
  intros ([|l ls] & Hnd & Hdom & Hh & Ht & Hc); [|done].
  unfold pop. by rewrite Hh.
Qed.

Lemma pop_cons (s : List A) x xs :
  repr s (x :: xs) -> exists s', pop s = Some (Some x, s') /\ repr s' xs.
Proof.
  intros ([|l0 ls] & Hnd & Hdom & Hh & Ht & Hc); [done|].
  destruct s as [hd tl h]; simpl in *. subst hd tl.
  destruct Hc as [Hl0 Hc]. apply NoDup_cons in Hnd as [Hl0ls Hnd].
  unfold pop; simpl. rewrite Hl0. simpl.
  eexists; split; [reflexivity|].
  exists ls. simpl. repeat split.
  - done.
  - rewrite dom_delete_L, Hdom.
    assert (l0 ∉ (list_to_set ls : gset loc)) by (by rewrite elem_of_list_to_set).
    set_solver.
  - destruct ls; [done|]. by rewrite last_cons_cons.
  - by apply qchain_delete_notin.
Qed.

Lemma qrepr_new : repr (@new A) [].
Proof. exists []. repeat split; constructor. Qed.

Lemma qrun_ops_spec (os : list (op A)) (s : List A) xs :
  repr s xs ->
  exists s', run_ops os s = Some (fst (spec_ops os xs), s') /\
             repr s' (snd (spec_ops os xs)).
Proof.
  revert s xs. induction os as [|o os IH]; intros s xs Hr; simpl.
  - eexists; split; [reflexivity|done].
  - destruct o as [x|].
    + destruct (push_spec s xs x Hr) as (s1 & Hp & Hr1).
      destruct (IH s1 (xs ++ [x]) Hr1) as (s2 & Hrun & Hr2).
      unfold run_op. rewrite Hp, Hrun. simpl.
      destruct (spec_ops os (xs ++ [x])) as [rs zs]. eexists; split; [reflexivity|done].
    + destruct xs as [|x xs].
      * destruct (IH s [] Hr) as (s2 & Hrun & Hr2).
        unfold run_op. rewrite (pop_empty s Hr), Hrun. simpl.
        destruct (spec_ops os []) as [rs zs]. eexists; split; [reflexivity|done].
      * destruct (pop_cons s x xs Hr) as (s1 & Hp & Hr1).
        destruct (IH s1 xs Hr1) as (s2 & Hrun & Hr2).
        unfold run_op. rewrite Hp, Hrun. simpl.
        destruct (spec_ops os xs) as [rs zs]. eexists; split; [reflexivity|done].
Qed.

End Proofs.

(** ** Claim about [List] of src/fifth.rs *)

(** C10: every sequence of [push]/[pop] from [new] runs without touching a
    dangling pointer and behaves as a FIFO queue (the outputs are those of
    [spec_ops]), also across exhaustion; whenever the queue is empty, both
    [head] and the raw [tail] pointer are null. *)
Theorem queue_fifo_survives_exhaustion {A : Type} (os : list (op A)) :
  exists s, run_ops os new = Some (fst (spec_ops os []), s) /\
    (snd (spec_ops os []) = [] -> head s = None /\ tail s = None).
Proof.
  destruct (qrun_ops_spec os new [] qrepr_new) as (s & Hrun & Hr).
  exists s. split; [done|]. intros He. rewrite He in Hr.
  destruct Hr as ([|l ls] & _ & _ & Hh & Ht & Hc); [done|done].
Qed.

(** ** Further properties of src/fifth.rs *)

(** [List] of src/fifth.rs has no [Drop] impl: discarding it drops [head],
    whose boxes own the whole chain, and the raw [tail] pointer, which owns
    nothing. *)
Definition drop_list {A : Type} (s : List A) : gmap loc (Node A) :=
  drop_link (head s) (heap s).

Section Extra.
Context {A : Type}.
Implicit Types (h : gmap loc (Node A)) (ls : list loc) (xs : list A).

Lemma drop_fuel_chain h ls xs fuel :
  chain h ls xs -> NoDup ls -> length ls < fuel ->
  forall i, drop_fuel fuel (List.hd_error ls) h !! i =
            if decide (i ∈ ls) then None else h !! i.
Proof.
  revert h xs fuel. induction ls as [|l ls IH]; intros h [|x xs] fuel Hc Hnd Hf i;
    simpl in Hc; try done.
  - rewrite decide_False by set_solver. by destruct fuel.
  - destruct Hc as [Hl Hc]. apply NoDup_cons in Hnd as [Hlls Hnd].
    destruct fuel as [|fuel]; [simpl in Hf; lia|]. simpl. rewrite Hl. simpl.
    rewrite (IH (delete l h) xs fuel); [|by apply qchain_delete_notin|done|simpl in Hf; lia].
    destruct (decide (i = l)) as [->|Hil].
    + rewrite lookup_delete_eq. by repeat case_decide; set_solver.
    + rewrite lookup_delete_ne by congruence. repeat case_decide; set_solver.
Qed.

Lemma repr_drop_list (s : List A) xs : repr s xs -> drop_list s = ∅.
Proof.
  intros (ls & Hnd & Hdom & Hh & Ht & Hc).
  unfold drop_list, drop_link. rewrite Hh.
  assert (Hsz : size (heap s) = length ls).
  { rewrite <- size_dom, Hdom. by apply size_list_to_set. }
  apply map_eq. intros i. rewrite (drop_fuel_chain _ _ _ _ Hc Hnd) by lia.
  rewrite lookup_empty. case_decide as Hi; [done|].
  apply not_elem_of_dom. rewrite Hdom. by rewrite elem_of_list_to_set.
Qed.

Lemma repr_heap_size (s : List A) xs : repr s xs -> size (heap s) = length xs.
Proof.
  intros (ls & Hnd & Hdom & Hh & Ht & Hc).
  rewrite <- size_dom, Hdom, size_list_to_set by done.
  clear Hnd Hdom Hh Ht. revert xs Hc.
  induction ls as [|l ls IH]; intros [|x xs] Hc; simpl in *; try done.
  destruct Hc as [_ Hc]. f_equal. auto.
Qed.

End Extra.

(** Discarding a queue reached from [new] frees every node: the drop glue
    of the owned [head] chain releases the whole heap. *)
Theorem discard_queue_frees_all {A : Type} (os : list (op A)) :
  exists rs s, run_ops os new = Some (rs, s) /\ drop_list s = ∅.
Proof.
  destruct (qrun_ops_spec os new [] qrepr_new) as (s & Hrun & Hr).
  exists (fst (spec_ops os [])), s. split; [done|]. by eapply repr_drop_list.
Qed.

(** A queue reached from [new] holds exactly one live box per queued
    element: [pop] frees the node it removes and [push] allocates one. *)
Theorem queue_heap_size {A : Type} (os : list (op A)) :
  exists s, run_ops os new = Some (fst (spec_ops os []), s) /\
    size (heap s) = length (snd (spec_ops os [])).
Proof.
  destruct (qrun_ops_spec os new [] qrepr_new) as (s & Hrun & Hr).
  exists s. split; [done|]. by eapply repr_heap_size.
Qed.

End Fifth.
